(** * Checkpoint scanner of [src/cloud/run.ipynb]

    A shallow embedding of [analyze_all_checkpoints], the reporting routine
    of the notebook's last cell, and the properties of its stage summary.

    The routine globs a directory for [*_checkpoint.pkl], unpickles every
    match, tallies the records by their [stage] field and collects the
    [firm_name] of each record per stage; it prints a report and returns
    the per-stage firm lists. *)

From stdpp Require Import gmap strings list pretty.

Set Warnings "-register-all".

Local Open Scope Z_scope.

(** ** Python dictionaries in insertion order

    [stage_counts] and [firms_by_stage] are Python dicts: iteration follows
    the order in which the keys were first stored, and the report is
    printed in that order.  They are modelled as association lists that
    never hold a key twice; [cp_data], on which only [.get] is used, is a
    [gmap]. *)
Module Dict.
Section Dict.
Context {V : Type}.

(** [d.get(k)], [None] when the key is absent. *)
Fixpoint get (d : list (string * V)) (k : string) : option V :=
  match d with
  | [] => None
  | (k', v) :: d' => if decide (k' = k) then Some v else get d' k
  end.

(** [d[k] = v]: overwrites in place, or stores the new key last. *)
Fixpoint set (d : list (string * V)) (k : string) (v : V) : list (string * V) :=
  match d with
  | [] => [(k, v)]
  | (k', v') :: d' =>
      if decide (k' = k) then (k', v) :: d' else (k', v') :: set d' k v
  end.

(** [k in d]. *)
Definition mem (d : list (string * V)) (k : string) : bool :=
  if get d k is Some _ then true else false.

Definition keys (d : list (string * V)) : list string := d.*1.
End Dict.
End Dict.

Abbreviation dict V := (list (string * V)) (only parsing).

(** ** Exceptions and results *)

Inductive exn :=
| UnpicklingError   (* [pickle.load] on a file that holds no pickle *)
| KeyError.         (* [d[k]] on an absent key *)

Inductive result (A : Type) :=
| Ok (a : A)
| Raise (e : exn).
Arguments Ok {A} a.
Arguments Raise {A} e.

Definition bind {A B} (r : result A) (k : A → result B) : result B :=
  match r with
  | Ok a => k a
  | Raise e => Raise e
  end.

Notation "x ←! r ; k" := (bind r (λ x, k))
  (at level 100, r at next level, right associativity).

(** ** The file system and the process output *)

(** What [pickle.load] makes of a file.  The records are dicts with string
    values: the two fields the routine reads are strings.  [Corrupt] is any
    content on which [pickle.load] raises. *)
Inductive file :=
| Pickle (cp_data : gmap string string)
| Corrupt.

(** A directory is its listing, in the order the operating system gives
    it; a path that is not bound is not a directory. *)
Record world := World {
  fs : gmap string (list (string * file));
  stdout : list string
}.

Definition print (line : string) (w : world) : world :=
  {| fs := fs w; stdout := stdout w ++ [line] |}.

(** ** Python objects handed back to the caller *)

Inductive pyval :=
| PyInt (n : Z)
| PyStr (s : string)
| PyList (items : list pyval)
| PyTuple (items : list pyval)
| PyDict (entries : list (string * pyval)).

Definition py_firms (firms_by_stage : dict (list string)) : pyval :=
  PyDict (prod_map id (λ firms, PyList (PyStr <$> firms)) <$> firms_by_stage).

Definition py_counts (stage_counts : dict Z) : pyval :=
  PyDict (prod_map id PyInt <$> stage_counts).

Inductive outcome :=
| Returned (v : pyval)
| Raised (e : exn).

(** ** The routine *)

(** [fnmatch] of a name against [*<suffix>]: the star takes any run of
    characters, the empty one too. *)
Definition ends_with (suffix name : string) : bool :=
  let n := String.length name in
  let k := String.length suffix in
  bool_decide (k ≤ n)%nat &&
  bool_decide (String.substring (n - k) k name = suffix).

(** [list(Path(dir).glob("*_checkpoint.pkl"))].  [pathlib] tests the path
    with [is_dir] first and yields nothing for a path that is not a
    directory; the matches come in listing order. *)
Definition glob (files : gmap string (list (string * file))) (dir : string)
  : list (string * file) :=
  match files !! dir with
  | Some listing => filter (λ e, ends_with "_checkpoint.pkl" e.1 = true) listing
  | None => []
  end.

Definition pickle_load (f : file) : result (gmap string string) :=
  match f with
  | Pickle cp_data => Ok cp_data
  | Corrupt => Raise UnpicklingError
  end.

Definition stage_of (cp_data : gmap string string) : string :=
  default "Unknown" (cp_data !! "stage").

Definition firm_of (cp_data : gmap string string) : string :=
  default "Unknown" (cp_data !! "firm_name").

(** The body of the [for cp_file in checkpoints] loop, on the two dicts. *)
Definition loop_body (st : dict Z * dict (list string)) (cp_file : string * file)
  : result (dict Z * dict (list string)) :=
  let '(stage_counts, firms_by_stage) := st in
  cp_data ←! pickle_load cp_file.2;
  let stage := stage_of cp_data in
  let firm := firm_of cp_data in
  let stage_counts :=
    Dict.set stage_counts stage (default 0 (Dict.get stage_counts stage) + 1) in
  let firms_by_stage :=
    if Dict.mem firms_by_stage stage then firms_by_stage
    else Dict.set firms_by_stage stage [] in
  match Dict.get firms_by_stage stage with
  | Some firms => Ok (stage_counts, Dict.set firms_by_stage stage (firms ++ [firm]))
  | None => Raise KeyError
  end.

Fixpoint for_each (checkpoints : list (string * file))
    (st : dict Z * dict (list string)) : result (dict Z * dict (list string)) :=
  match checkpoints with
  | [] => Ok st
  | cp_file :: rest => st' ←! loop_body st cp_file; for_each rest st'
  end.

(** The loop from the two empty dicts. *)
Definition aggregate (checkpoints : list (string * file))
  : result (dict Z * dict (list string)) :=
  for_each checkpoints ([], []).

Definition newline : string := String (Ascii.ascii_of_nat 10) EmptyString.

Definition report (total : Z) (stage_counts : dict Z) : list string :=
  [ "Checkpoint Analysis:";
    "Total checkpoints: " +:+ pretty total;
    newline +:+ "Breakdown by stage:" ] ++
  ((λ '(stage, count), "  - " +:+ stage +:+ ": " +:+ pretty count +:+ " firms")
     <$> stage_counts).

Definition print_all (lines : list string) (w : world) : world :=
  foldl (λ w line, print line w) w lines.

Definition analyze_all_checkpoints (checkpoint_dir : string) (w : world)
  : outcome * world :=
  let checkpoints := glob (fs w) checkpoint_dir in
  match aggregate checkpoints with
  | Raise e => (Raised e, w)
  | Ok (stage_counts, firms_by_stage) =>
      (Returned (py_firms firms_by_stage),
       print_all (report (Z.of_nat (length checkpoints)) stage_counts) w)
  end.

(** ** A drive to run the routine on

    [/ckpt] is the three-file scenario of the specification next to a file
    the pattern does not match; [/lenient] has four checkpoints, one of
    them corrupt; [/empty] has no checkpoint; [/partial] has records that
    lack a field, two of them alike. *)

Definition rec_of (stage firm : string) : gmap string string :=
  {[ "stage" := stage; "firm_name" := firm ]}.

Definition drive : world :=
  World
    {[ "/ckpt" :=
         [ ("a_checkpoint.pkl", Pickle (rec_of "embedding" "Acme"));
           ("notes.txt", Corrupt);
           ("b_checkpoint.pkl", Pickle (rec_of "topic_modeling" "Globex"));
           ("c_checkpoint.pkl", Pickle (rec_of "topic_modeling" "Initech")) ];
       "/lenient" :=
         [ ("a_checkpoint.pkl", Pickle (rec_of "embedding" "Acme"));
           ("b_checkpoint.pkl", Corrupt);
           ("c_checkpoint.pkl", Pickle (rec_of "topic_modeling" "Globex"));
           ("d_checkpoint.pkl", Pickle (rec_of "topic_modeling" "Initech")) ];
       "/empty" := [ ("notes.txt", Corrupt) ];
       "/partial" :=
         [ ("x_checkpoint.pkl", Pickle {[ "firm_name" := "Acme" ]});
           ("y_checkpoint.pkl", Pickle ∅);
           ("z_checkpoint.pkl", Pickle {[ "firm_name" := "Acme" ]}) ] ]}
    [ "mounted" ].

(** ** What the summary is measured against *)

(** The records of the files that unpickle, in listing order. *)
Definition parsed (checkpoints : list (string * file)) : list (gmap string string) :=
  omap (λ cp_file, if cp_file.2 is Pickle cp_data then Some cp_data else None)
       checkpoints.

Definition unpickles (cp_file : string * file) : Prop :=
  ∃ cp_data, cp_file.2 = Pickle cp_data.

#[global] Instance unpickles_dec cp_file : Decision (unpickles cp_file).
Proof.
  destruct cp_file as [name [cp_data|]].
  - left. by exists cp_data.
  - right. by intros [cp_data ?].
Defined.

(** The firm names of the records of one stage, in listing order. *)
Definition firms_in (stage : string) (records : list (gmap string string))
  : list string :=
  firm_of <$> filter (λ r, stage_of r = stage) records.

(** A dict holds no key for an empty group. *)
Definition group {A} (l : list A) : option (list A) :=
  match l with
  | [] => None
  | _ => Some l
  end.

Definition total (stage_counts : dict Z) : Z :=
  foldr (λ e acc, e.2 + acc) 0 stage_counts.

(** Both dicts describe the records [records]. *)
Definition tallies (records : list (gmap string string))
    (st : dict Z * dict (list string)) : Prop :=
  ∀ stage,
    Dict.get st.2 stage = group (firms_in stage records) ∧
    Dict.get st.1 stage =
      (λ firms, Z.of_nat (length firms)) <$> group (firms_in stage records).

(** ** Readings of the specification that the routine does not meet *)

(** A missing directory is an error for the caller. *)
Definition missing_directory_fails (d : string) (w : world) : Prop :=
  fs w !! d = None → ∃ e, (analyze_all_checkpoints d w).1 = Raised e.

(** One corrupt checkpoint does not stop the scan. *)
Definition survives_corrupt_file (d : string) (w : world) : Prop :=
  length (filter (λ cp_file, ¬ unpickles cp_file) (glob (fs w) d)) = 1%nat →
  ∃ v, (analyze_all_checkpoints d w).1 = Returned v.

(** What a caller can take out of a returned object without computing:
    the object, the items of a list or tuple, the values of a dict. *)
Definition py_parts (v : pyval) : list pyval :=
  v :: match v with
       | PyList items | PyTuple items => items
       | PyDict entries => entries.*2
       | _ => []
       end.

(** The caller receives both dicts of the summary. *)
Definition full_summary_returned (d : string) (w : world) : Prop :=
  is_Some (fs w !! d) →
  ∃ counts firms v,
    aggregate (glob (fs w) d) = Ok (counts, firms) ∧
    (analyze_all_checkpoints d w).1 = Returned v ∧
    py_counts counts ∈ py_parts v ∧
    py_firms firms ∈ py_parts v.

(** The lines of a report on no checkpoint. *)
Definition empty_report : list string :=
  [ "Checkpoint Analysis:"; "Total checkpoints: 0"; newline +:+ "Breakdown by stage:" ].

(** ** Further measures of a scan *)

(** The distinct elements of a list, in the order of their first
    occurrence: the order in which a Python dict comes to hold its keys. *)
Fixpoint first_seen (l : list string) : list string :=
  match l with
  | [] => []
  | x :: l' => x :: filter (λ y, y ≠ x) (first_seen l')
  end.

(** Two directory entries that the loop cannot tell apart: both fail to
    unpickle, or both give a record with the same two values read. *)
Definition same_fields (a b : string * file) : Prop :=
  match a.2, b.2 with
  | Pickle r1, Pickle r2 => stage_of r1 = stage_of r2 ∧ firm_of r1 = firm_of r2
  | Corrupt, Corrupt => True
  | _, _ => False
  end.

(** A drive whose [/ckpt] holds the three checkpoints alone. *)
Definition drive_sorted : world :=
  World
    {[ "/ckpt" :=
         [ ("a_checkpoint.pkl", Pickle (rec_of "embedding" "Acme"));
           ("b_checkpoint.pkl", Pickle (rec_of "topic_modeling" "Globex"));
           ("c_checkpoint.pkl", Pickle (rec_of "topic_modeling" "Initech")) ] ]}
    [].

(** A drive with the same records under other names: [/ckpt] lists the
    first checkpoint last; the records of [/partial] spell ["Unknown"] out
    and carry a field that the routine does not read. *)
Definition drive_variant : world :=
  World
    {[ "/ckpt" :=
         [ ("notes.txt", Corrupt);
           ("b_checkpoint.pkl", Pickle (rec_of "topic_modeling" "Globex"));
           ("c_checkpoint.pkl", Pickle (rec_of "topic_modeling" "Initech"));
           ("a_checkpoint.pkl", Pickle (rec_of "embedding" "Acme")) ];
       "/partial" :=
         [ ("p_checkpoint.pkl",
            Pickle {[ "stage" := "Unknown"; "firm_name" := "Acme"; "epoch" := "3" ]});
           ("q_checkpoint.pkl", Pickle {[ "firm_name" := "Unknown" ]});
           ("r_checkpoint.pkl", Pickle {[ "stage" := "Unknown"; "firm_name" := "Acme" ]}) ] ]}
    [].

(** All firm names of a mapping, stage after stage. *)
Definition all_firms (firms_by_stage : dict (list string)) : list string :=
  concat firms_by_stage.*2.

(** * Facts about the dicts *)

Section dict_facts.
Context {V : Type}.
Implicit Types (d : dict V) (k : string) (v : V).

Lemma get_set d k k' v :
  Dict.get (Dict.set d k v) k' = if decide (k = k') then Some v else Dict.get d k'.
Proof.
  induction d as [|[k0 v0] d IH]; simpl.
  - repeat case_decide; congruence.
  - destruct (decide (k0 = k)) as [->|Hne]; simpl.
    + repeat case_decide; congruence.
    + rewrite IH. repeat case_decide; congruence.
Qed.

Lemma get_set_eq d k v : Dict.get (Dict.set d k v) k = Some v.
Proof. rewrite get_set. by case_decide. Qed.

Lemma get_set_ne d k k' v :
  k ≠ k' → Dict.get (Dict.set d k v) k' = Dict.get d k'.
Proof. intros. rewrite get_set. by case_decide. Qed.

Lemma mem_get d k : Dict.mem d k = bool_decide (is_Some (Dict.get d k)).
Proof.
  unfold Dict.mem. destruct (Dict.get d k) eqn:E.
  - symmetry. apply bool_decide_eq_true. eauto.
  - symmetry. apply bool_decide_eq_false. by intros [? ?].
Qed.
End dict_facts.

Lemma total_set_incr (d : dict Z) k :
  total (Dict.set d k (default 0 (Dict.get d k) + 1)) = total d + 1.
Proof.
  induction d as [|[k0 n0] d IH]; simpl; [lia|].
  case_decide; simpl; [lia|]. rewrite IH. lia.
Qed.

(** * The loop *)

Lemma firms_in_snoc stage records r :
  firms_in stage (records ++ [r]) =
  firms_in stage records ++ (if decide (stage_of r = stage) then [firm_of r] else []).
Proof.
  unfold firms_in. rewrite filter_app, fmap_app. f_equal.
  rewrite filter_cons, filter_nil. by case_decide.
Qed.

Lemma group_snoc {A} (l : list A) x : group (l ++ [x]) = Some (l ++ [x]).
Proof. by destruct l. Qed.

Lemma group_default {A} (l : list A) : default [] (group l) = l.
Proof. by destruct l. Qed.

(** On a file that unpickles the body stores one more record. *)
Lemma loop_body_pickle stage_counts firms_by_stage name cp_data :
  loop_body (stage_counts, firms_by_stage) (name, Pickle cp_data) =
  Ok (Dict.set stage_counts (stage_of cp_data)
        (default 0 (Dict.get stage_counts (stage_of cp_data)) + 1),
      Dict.set
        (if Dict.mem firms_by_stage (stage_of cp_data) then firms_by_stage
         else Dict.set firms_by_stage (stage_of cp_data) [])
        (stage_of cp_data)
        (default [] (Dict.get firms_by_stage (stage_of cp_data)) ++ [firm_of cp_data])).
Proof.
  unfold loop_body, Dict.mem; simpl.
  destruct (Dict.get firms_by_stage (stage_of cp_data)) as [firms|] eqn:E.
  - by rewrite E.
  - by rewrite get_set_eq.
Qed.

Lemma loop_body_corrupt st name : loop_body st (name, Corrupt) = Raise UnpicklingError.
Proof. by destruct st. Qed.

Lemma loop_body_tallies records st name cp_data :
  tallies records st →
  ∃ st', loop_body st (name, Pickle cp_data) = Ok st' ∧
         tallies (records ++ [cp_data]) st' ∧
         total st'.1 = total st.1 + 1.
Proof.
  destruct st as [counts firms]. intros Hst.
  rewrite loop_body_pickle. eexists; split; [done|]. simpl.
  split; [|apply total_set_incr].
  intros stage. destruct (Hst stage) as [Hf Hc]. simpl in *.
  destruct (Hst (stage_of cp_data)) as [Hf0 Hc0]. simpl in *.
  rewrite !get_set, firms_in_snoc, Hf0, Hc0, group_default.
  destruct (decide (stage_of cp_data = stage)) as [<-|Hne].
  - rewrite group_snoc. simpl. split; [done|]. f_equal.
    rewrite length_app. simpl.
    destruct (firms_in (stage_of cp_data) records); simpl; lia.
  - rewrite app_nil_r. split; [|done].
    rewrite <- Hf. unfold Dict.mem. rewrite Hf0.
    destruct (group (firms_in (stage_of cp_data) records)); [done|].
    by rewrite get_set_ne.
Qed.

Lemma for_each_tallies checkpoints : ∀ records st,
  Forall unpickles checkpoints →
  tallies records st →
  ∃ st', for_each checkpoints st = Ok st' ∧
         tallies (records ++ parsed checkpoints) st' ∧
         total st'.1 = total st.1 + Z.of_nat (length checkpoints).
Proof.
  induction checkpoints as [|[name f] rest IH]; intros records st Hall Hst.
  - exists st. simpl. rewrite app_nil_r. split_and!; [done|done|lia].
  - apply Forall_cons in Hall as [[cp_data Hf] Hrest]. simpl in Hf. subst f.
    destruct (loop_body_tallies records st name cp_data Hst)
      as (st1 & Hbody & Hst1 & Htot1).
    destruct (IH (records ++ [cp_data]) st1 Hrest Hst1) as (st' & Hloop & Hst' & Htot).
    exists st'. cbn [for_each]. rewrite Hbody. cbn [bind length].
    split_and!; [done| |lia].
    by rewrite <- app_assoc in Hst'.
Qed.

(** The first file that does not unpickle stops the loop. *)
Lemma for_each_corrupt checkpoints : ∀ st,
  ¬ Forall unpickles checkpoints → for_each checkpoints st = Raise UnpicklingError.
Proof.
  induction checkpoints as [|[name f] rest IH]; intros st Hnot.
  - destruct Hnot. constructor.
  - destruct f as [cp_data|].
    + destruct st as [counts firms]. cbn [for_each]. rewrite loop_body_pickle. cbn [bind].
      apply IH. intros Hrest. apply Hnot. constructor; [by eexists|done].
    + cbn [for_each]. by rewrite loop_body_corrupt.
Qed.

Lemma tallies_empty : tallies [] ([], []).
Proof. by intros stage. Qed.

Lemma aggregate_tallies checkpoints :
  Forall unpickles checkpoints →
  ∃ st, aggregate checkpoints = Ok st ∧
        tallies (parsed checkpoints) st ∧
        total st.1 = Z.of_nat (length checkpoints).
Proof.
  intros Hall.
  destruct (for_each_tallies checkpoints [] ([], []) Hall tallies_empty)
    as (st & Hloop & Hst & Htot).
  exists st. split_and!; [done|done|]. simpl in Htot. lia.
Qed.

Lemma aggregate_ok_unpickles checkpoints st :
  aggregate checkpoints = Ok st → Forall unpickles checkpoints.
Proof.
  intros Hok. destruct (decide (Forall unpickles checkpoints)) as [|Hnot]; [done|].
  unfold aggregate in Hok. by rewrite for_each_corrupt in Hok.
Qed.

(** ** Keys are stored once *)

Section dict_keys.
Context {V : Type}.
Implicit Types (d : dict V) (k : string) (v : V).

Lemma elem_of_keys_set d k v k' :
  k' ∈ Dict.keys (Dict.set d k v) ↔ k' = k ∨ k' ∈ Dict.keys d.
Proof.
  unfold Dict.keys. induction d as [|[k0 v0] d IH]; simpl.
  - rewrite list_elem_of_singleton, elem_of_nil. tauto.
  - case_decide; subst; simpl; rewrite !elem_of_cons; [tauto|].
    rewrite IH. tauto.
Qed.

Lemma keys_set_NoDup d k v :
  NoDup (Dict.keys d) → NoDup (Dict.keys (Dict.set d k v)).
Proof.
  unfold Dict.keys. induction d as [|[k0 v0] d IH]; simpl; intros Hnd.
  - apply NoDup_singleton.
  - apply NoDup_cons in Hnd as [Hnotin Hnd].
    case_decide; subst; simpl; apply NoDup_cons; [done| split; [|by apply IH]].
    intros Hin. apply (elem_of_keys_set d k v k0) in Hin as [?|?]; [done|].
    by apply Hnotin.
Qed.

Lemma get_of_entry d k v :
  NoDup (Dict.keys d) → (k, v) ∈ d → Dict.get d k = Some v.
Proof.
  unfold Dict.keys. induction d as [|[k0 v0] d IH]; simpl; intros Hnd Hin.
  - by apply elem_of_nil in Hin.
  - apply NoDup_cons in Hnd as [Hnotin Hnd].
    apply elem_of_cons in Hin as [Heq|Hin].
    + injection Heq as -> ->. by case_decide.
    + case_decide; [|by apply IH]. subst k0.
      destruct Hnotin. apply list_elem_of_fmap. by exists (k, v).
Qed.
End dict_keys.

Lemma loop_body_NoDup st cp_file st' :
  loop_body st cp_file = Ok st' →
  NoDup (Dict.keys st.1) → NoDup (Dict.keys st.2) →
  NoDup (Dict.keys st'.1) ∧ NoDup (Dict.keys st'.2).
Proof.
  destruct st as [counts firms], cp_file as [name [cp_data|]];
    [|by rewrite loop_body_corrupt].
  rewrite loop_body_pickle. intros [= <-] Hc Hf. simpl in *. split.
  - by apply keys_set_NoDup.
  - apply keys_set_NoDup. destruct (Dict.mem _ _); [done|by apply keys_set_NoDup].
Qed.

Lemma for_each_NoDup checkpoints : ∀ st st',
  for_each checkpoints st = Ok st' →
  NoDup (Dict.keys st.1) → NoDup (Dict.keys st.2) →
  NoDup (Dict.keys st'.1) ∧ NoDup (Dict.keys st'.2).
Proof.
  induction checkpoints as [|cp_file rest IH]; intros st st'; cbn [for_each].
  - by intros [= <-].
  - destruct (loop_body st cp_file) as [st1|e] eqn:Hbody; [|done]. cbn [bind].
    intros Hloop Hc Hf.
    destruct (loop_body_NoDup _ _ _ Hbody Hc Hf). by apply (IH st1).
Qed.

(** * The routine as a whole *)

Lemma print_all_fs lines w : fs (print_all lines w) = fs w.
Proof. revert w. induction lines as [|l lines IH]; intros w; [done|]. simpl. by rewrite IH. Qed.

Lemma print_all_stdout lines w : stdout (print_all lines w) = stdout w ++ lines.
Proof.
  revert w. induction lines as [|l lines IH]; intros w; simpl.
  - by rewrite app_nil_r.
  - rewrite IH. simpl. by rewrite <- app_assoc.
Qed.

Lemma parsed_length checkpoints :
  Forall unpickles checkpoints → length (parsed checkpoints) = length checkpoints.
Proof.
  induction 1 as [|[name f] rest [cp_data Hf] _ IH]; [done|].
  simpl in Hf. subst f. simpl. by rewrite IH.
Qed.

(** When every match unpickles, the routine completes, and its two dicts
    describe the records of the matches. *)
Lemma analyze_complete d w :
  Forall unpickles (glob (fs w) d) →
  ∃ counts firms,
    aggregate (glob (fs w) d) = Ok (counts, firms) ∧
    analyze_all_checkpoints d w =
      (Returned (py_firms firms),
       print_all (report (Z.of_nat (length (glob (fs w) d))) counts) w) ∧
    tallies (parsed (glob (fs w) d)) (counts, firms) ∧
    total counts = Z.of_nat (length (glob (fs w) d)) ∧
    NoDup (Dict.keys counts) ∧ NoDup (Dict.keys firms).
Proof.
  intros Hall.
  destruct (aggregate_tallies _ Hall) as ([counts firms] & Hagg & Hst & Htot).
  exists counts, firms. unfold analyze_all_checkpoints. rewrite Hagg.
  split_and!; [done|done|done|done|..];
    by apply (for_each_NoDup _ _ _ Hagg); simpl; apply NoDup_nil.
Qed.

(** When a match does not unpickle, the routine raises before it prints. *)
Lemma analyze_abort d w :
  ¬ Forall unpickles (glob (fs w) d) →
  analyze_all_checkpoints d w = (Raised UnpicklingError, w).
Proof.
  intros Hnot. unfold analyze_all_checkpoints, aggregate.
  by rewrite for_each_corrupt.
Qed.

Lemma analyze_returned d w v w' :
  analyze_all_checkpoints d w = (Returned v, w') →
  Forall unpickles (glob (fs w) d).
Proof.
  intros Hrun. destruct (decide (Forall unpickles (glob (fs w) d))) as [|Hnot]; [done|].
  by rewrite analyze_abort in Hrun.
Qed.

(** * Directories without a summary to give *)

Ltac run_drive := vm_compute; reflexivity.

Lemma glob_missing files d : files !! d = None → glob files d = [].
Proof. intros Hd. unfold glob. by rewrite Hd. Qed.

Lemma analyze_no_match d w :
  glob (fs w) d = [] →
  analyze_all_checkpoints d w = (Returned (PyDict []), print_all empty_report w).
Proof. intros Hglob. unfold analyze_all_checkpoints. by rewrite Hglob. Qed.

(** C1, as the routine has it: a directory that does not exist is read as
    a directory without checkpoints.  The scan returns the empty mapping
    and reports a total of zero; no error reaches the caller. *)
Theorem missing_directory_reads_as_empty d w :
  fs w !! d = None →
  analyze_all_checkpoints d w = (Returned (PyDict []), print_all empty_report w).
Proof. intros Hd. apply analyze_no_match. by apply glob_missing. Qed.

Lemma missing_directory_reads_as_empty_witness :
  fs drive !! "/nope" = None ∧
  analyze_all_checkpoints "/nope" drive =
    (Returned (PyDict []), print_all empty_report drive).
Proof.
  split; [run_drive|].
  apply (missing_directory_reads_as_empty "/nope" drive). run_drive.
Defined.

(** C1, as the specification states it, fails on [/nope]: the path is not
    on the drive and the scan returns the empty mapping. *)
Lemma missing_directory_not_surfaced :
  fs drive !! "/nope" = None ∧
  (analyze_all_checkpoints "/nope" drive).1 = Returned (PyDict []) ∧
  ¬ missing_directory_fails "/nope" drive.
Proof.
  split_and!; [run_drive|run_drive|].
  intros Hfails. destruct Hfails as [e He]; [run_drive|].
  vm_compute in He. discriminate He.
Qed.

(** C2, as the routine has it: a checkpoint that does not unpickle stops
    the scan.  The error reaches the caller, no summary is returned and
    nothing is printed, wherever in the listing the corrupt file is. *)
Theorem corrupt_file_aborts d w name :
  (name, Corrupt) ∈ glob (fs w) d →
  analyze_all_checkpoints d w = (Raised UnpicklingError, w).
Proof.
  intros Hin. apply analyze_abort. intros Hall.
  rewrite Forall_forall in Hall. by destruct (Hall _ Hin) as [cp_data ?].
Qed.

Lemma corrupt_file_aborts_witness :
  ("b_checkpoint.pkl", Corrupt) ∈ glob (fs drive) "/lenient" ∧
  analyze_all_checkpoints "/lenient" drive = (Raised UnpicklingError, drive).
Proof.
  assert (Hin : ("b_checkpoint.pkl", Corrupt) ∈ glob (fs drive) "/lenient").
  { apply (list_elem_of_lookup_2 _ 1%nat). run_drive. }
  split; [exact Hin|].
  exact (corrupt_file_aborts "/lenient" drive "b_checkpoint.pkl" Hin).
Defined.

(** C2, as the specification states it, fails on [/lenient]: one of its
    four checkpoints is corrupt and the scan raises. *)
Lemma corrupt_file_not_skipped :
  (analyze_all_checkpoints "/lenient" drive).1 = Raised UnpicklingError ∧
  ¬ survives_corrupt_file "/lenient" drive.
Proof.
  split; [run_drive|].
  intros Hsurvives. destruct Hsurvives as [v Hv]; [run_drive|].
  vm_compute in Hv. discriminate Hv.
Qed.

(** C7: a directory that exists and holds no file of the checkpoint
    pattern is scanned without error; both dicts end empty, the empty
    mapping is returned and the reported total is zero. *)
Theorem empty_directory_summary d w listing :
  fs w !! d = Some listing →
  Forall (λ entry, ends_with "_checkpoint.pkl" entry.1 = false) listing →
  aggregate (glob (fs w) d) = Ok ([], []) ∧
  analyze_all_checkpoints d w = (Returned (PyDict []), print_all empty_report w) ∧
  stdout (analyze_all_checkpoints d w).2 = stdout w ++ empty_report.
Proof.
  intros Hd Hnone.
  assert (Hglob : glob (fs w) d = []).
  { unfold glob. rewrite Hd. clear Hd.
    induction Hnone as [|entry rest Hentry _ IH]; [done|].
    rewrite filter_cons, IH. case_decide; congruence. }
  rewrite (analyze_no_match _ _ Hglob), Hglob. split_and!; [done|done|].
  apply print_all_stdout.
Qed.

Lemma empty_directory_summary_witness :
  fs drive !! "/empty" = Some [ ("notes.txt", Corrupt) ] ∧
  analyze_all_checkpoints "/empty" drive =
    (Returned (PyDict []), print_all empty_report drive).
Proof.
  assert (Hd : fs drive !! "/empty" = Some [ ("notes.txt", Corrupt) ]) by run_drive.
  split; [exact Hd|].
  refine (proj1 (proj2 (empty_directory_summary "/empty" drive _ Hd _))).
  repeat constructor.
Defined.

(** * Completed scans *)

Ltac all_unpickle := apply (bool_decide_unpack _); vm_compute; exact I.

Lemma counts_not_in_firms (counts : dict Z) (firms : dict (list string)) :
  counts ≠ [] → py_counts counts ∉ py_parts (py_firms firms).
Proof.
  intros Hne Hin. unfold py_parts, py_firms in Hin. fold (py_firms firms) in Hin.
  apply elem_of_cons in Hin as [Heq|Hin].
  - destruct counts as [|[k n] counts]; [done|].
    destruct firms as [|[k' l] firms]; discriminate Heq.
  - rewrite <- list_fmap_compose in Hin.
    apply list_elem_of_fmap in Hin as ([k l] & Heq & _). discriminate Heq.
Qed.

(** C3, as the routine has it: when every checkpoint of the directory
    unpickles, the scan returns the mapping from stage to the firm names of
    that stage in listing order, and nothing else.  The counts go to the
    printed report; they are no part of the returned object. *)
Theorem returns_firms_by_stage d w :
  is_Some (fs w !! d) →
  Forall unpickles (glob (fs w) d) →
  ∃ counts firms,
    aggregate (glob (fs w) d) = Ok (counts, firms) ∧
    analyze_all_checkpoints d w =
      (Returned (py_firms firms),
       print_all (report (Z.of_nat (length (glob (fs w) d))) counts) w) ∧
    (∀ stage, Dict.get firms stage = group (firms_in stage (parsed (glob (fs w) d)))) ∧
    (counts ≠ [] → py_counts counts ∉ py_parts (py_firms firms)).
Proof.
  intros _ Hall.
  destruct (analyze_complete d w Hall) as (counts & firms & Hagg & Hrun & Hst & _).
  exists counts, firms. split_and!; [done|done| |apply counts_not_in_firms].
  intros stage. apply (Hst stage).
Qed.

Lemma returns_firms_by_stage_witness :
  analyze_all_checkpoints "/ckpt" drive =
    (Returned (PyDict [ ("embedding", PyList [PyStr "Acme"]);
                        ("topic_modeling", PyList [PyStr "Globex"; PyStr "Initech"]) ]),
     World (fs drive)
       [ "mounted"; "Checkpoint Analysis:"; "Total checkpoints: 3";
         newline +:+ "Breakdown by stage:";
         "  - embedding: 1 firms"; "  - topic_modeling: 2 firms" ]).
Proof.
  assert (Hd : is_Some (fs drive !! "/ckpt")) by (eexists; run_drive).
  assert (Hall : Forall unpickles (glob (fs drive) "/ckpt")) by all_unpickle.
  destruct (returns_firms_by_stage "/ckpt" drive Hd Hall)
    as (counts & firms & Hagg & Hrun & _).
  vm_compute in Hagg. injection Hagg as <- <-.
  rewrite Hrun. run_drive.
Defined.

(** C3, as the specification states it, fails on [/ckpt]: the scan returns
    the firm lists of the two stages, and the dict of the counts is neither
    that object nor one of its values. *)
Lemma full_summary_not_returned :
  (analyze_all_checkpoints "/ckpt" drive).1 =
    Returned (PyDict [ ("embedding", PyList [PyStr "Acme"]);
                       ("topic_modeling", PyList [PyStr "Globex"; PyStr "Initech"]) ]) ∧
  ¬ full_summary_returned "/ckpt" drive.
Proof.
  split; [run_drive|].
  intros Hfull.
  destruct Hfull as (counts & firms & v & Hagg & Hrun & Hcounts & _);
    [eexists; run_drive|].
  vm_compute in Hagg. injection Hagg as <- <-.
  vm_compute in Hrun. injection Hrun as <-.
  unfold py_parts in Hcounts. simpl in Hcounts.
  rewrite !elem_of_cons, elem_of_nil in Hcounts.
  destruct Hcounts as [Heq|[Heq|[Heq|[]]]]; discriminate Heq.
Qed.

Lemma analyze_returned_complete d w v w' :
  analyze_all_checkpoints d w = (Returned v, w') →
  ∃ counts firms,
    aggregate (glob (fs w) d) = Ok (counts, firms) ∧
    v = py_firms firms ∧
    w' = print_all (report (Z.of_nat (length (glob (fs w) d))) counts) w ∧
    tallies (parsed (glob (fs w) d)) (counts, firms) ∧
    total counts = Z.of_nat (length (parsed (glob (fs w) d))) ∧
    NoDup (Dict.keys counts) ∧ NoDup (Dict.keys firms).
Proof.
  intros Hrun. pose proof (analyze_returned _ _ _ _ Hrun) as Hall.
  destruct (analyze_complete d w Hall)
    as (counts & firms & Hagg & Hrun' & Hst & Htot & Hc & Hf).
  rewrite Hrun' in Hrun. injection Hrun as <- <-.
  exists counts, firms. rewrite parsed_length by done. by split_and!.
Qed.

(** C4: after a completed scan a stage has a count exactly when it has a
    firm list, and the count is the length of the list. *)
Theorem count_is_length d w v w' :
  analyze_all_checkpoints d w = (Returned v, w') →
  ∃ counts firms,
    aggregate (glob (fs w) d) = Ok (counts, firms) ∧
    v = py_firms firms ∧
    ∀ stage,
      Dict.get counts stage =
      (λ l, Z.of_nat (length l)) <$> Dict.get firms stage.
Proof.
  intros Hrun.
  destruct (analyze_returned_complete _ _ _ _ Hrun)
    as (counts & firms & Hagg & Hv & _ & Hst & _).
  exists counts, firms. split_and!; [done|done|].
  intros stage. destruct (Hst stage) as [Hf Hc]. simpl in *. by rewrite Hc, Hf.
Qed.

Lemma count_is_length_witness :
  ∃ counts firms,
    aggregate (glob (fs drive) "/ckpt") = Ok (counts, firms) ∧
    Dict.get counts "topic_modeling" = Some 2 ∧
    Dict.get firms "topic_modeling" = Some ["Globex"; "Initech"].
Proof.
  destruct (count_is_length "/ckpt" drive _ _ eq_refl)
    as (counts & firms & Hagg & _ & Hlen).
  exists counts, firms. split; [exact Hagg|].
  pose proof (Hlen "topic_modeling") as Hcount.
  vm_compute in Hagg. injection Hagg as <- <-.
  split; [exact Hcount|reflexivity].
Defined.

(** C5: after a completed scan the counts of the stages, each stage being
    counted once, add up to the number of checkpoints that were parsed, and
    the line of the report that gives the total shows this number. *)
Theorem counts_sum_to_total d w v w' :
  analyze_all_checkpoints d w = (Returned v, w') →
  ∃ counts firms,
    aggregate (glob (fs w) d) = Ok (counts, firms) ∧
    NoDup (Dict.keys counts) ∧
    total counts = Z.of_nat (length (parsed (glob (fs w) d))) ∧
    stdout w' !! (length (stdout w) + 1)%nat =
      Some ("Total checkpoints: " +:+ pretty (total counts)).
Proof.
  intros Hrun.
  destruct (analyze_returned_complete _ _ _ _ Hrun)
    as (counts & firms & Hagg & _ & -> & _ & Htot & Hnd & _).
  exists counts, firms. split_and!; [done|done|done|].
  rewrite print_all_stdout, lookup_app_r by lia.
  replace (length (stdout w) + 1 - length (stdout w))%nat with 1%nat by lia.
  simpl. do 3 f_equal. rewrite Htot. f_equal.
  symmetry. apply parsed_length. by eapply aggregate_ok_unpickles.
Qed.

Lemma counts_sum_to_total_witness :
  ∃ counts firms,
    aggregate (glob (fs drive) "/ckpt") = Ok (counts, firms) ∧
    total counts = 3 ∧
    stdout (analyze_all_checkpoints "/ckpt" drive).2 !! 2%nat =
      Some "Total checkpoints: 3".
Proof.
  destruct (counts_sum_to_total "/ckpt" drive _ _ eq_refl)
    as (counts & firms & Hagg & _ & Htot & Hline).
  exists counts, firms. split; [exact Hagg|].
  vm_compute in Hagg. injection Hagg as <- <-.
  split; [reflexivity|run_drive].
Defined.

(** C9: after a completed scan every entry of the returned mapping has a
    firm list that is not empty, and every entry of the counts is
    positive: a stage is a key only once a record was stored under it. *)
Theorem stage_keys_nonempty d w v w' :
  analyze_all_checkpoints d w = (Returned v, w') →
  ∃ counts firms,
    aggregate (glob (fs w) d) = Ok (counts, firms) ∧
    v = py_firms firms ∧
    (∀ stage l, (stage, l) ∈ firms → l ≠ []) ∧
    (∀ stage n, (stage, n) ∈ counts → 0 < n).
Proof.
  intros Hrun.
  destruct (analyze_returned_complete _ _ _ _ Hrun)
    as (counts & firms & Hagg & Hv & _ & Hst & _ & Hc & Hf).
  exists counts, firms. split_and!; [done|done|..].
  - intros stage l Hin. apply (get_of_entry _ _ _ Hf) in Hin.
    destruct (Hst stage) as [Hget _]. simpl in Hget. rewrite Hin in Hget.
    intros ->. by destruct (firms_in stage _).
  - intros stage n Hin. apply (get_of_entry _ _ _ Hc) in Hin.
    destruct (Hst stage) as [_ Hget]. simpl in Hget. rewrite Hin in Hget.
    destruct (firms_in stage _); simpl in Hget; [done|].
    injection Hget as ->. lia.
Qed.

Lemma stage_keys_nonempty_witness :
  ∃ counts firms,
    aggregate (glob (fs drive) "/ckpt") = Ok (counts, firms) ∧
    (∀ stage l, (stage, l) ∈ firms → l ≠ []) ∧
    (∀ stage n, (stage, n) ∈ counts → 0 < n).
Proof.
  destruct (stage_keys_nonempty "/ckpt" drive _ _ eq_refl)
    as (counts & firms & Hagg & _ & Hfirms & Hcounts).
  by exists counts, firms.
Defined.

(** * Single records in the summary *)

Lemma parsed_elem name cp_data checkpoints :
  (name, Pickle cp_data) ∈ checkpoints → cp_data ∈ parsed checkpoints.
Proof. intros Hin. apply list_elem_of_omap. by exists (name, Pickle cp_data). Qed.

Lemma firms_in_elem r records :
  r ∈ records → firm_of r ∈ firms_in (stage_of r) records.
Proof.
  intros Hin. apply list_elem_of_fmap_2. by apply list_elem_of_filter.
Qed.

Lemma group_elem {A} (x : A) l : x ∈ l → group l = Some l.
Proof. destruct l; [by intros ?%elem_of_nil|done]. Qed.

(** C6: a record that unpickles is never an error, whatever fields it
    has.  In a directory whose checkpoints all unpickle, a record without
    [stage] has its firm in the list of the stage ["Unknown"], and a record
    without [firm_name] has ["Unknown"] in the list of its stage. *)
Theorem missing_fields_default d w name cp_data :
  Forall unpickles (glob (fs w) d) →
  (name, Pickle cp_data) ∈ glob (fs w) d →
  ∃ firms w',
    analyze_all_checkpoints d w = (Returned (py_firms firms), w') ∧
    (cp_data !! "stage" = None →
       ∃ l, Dict.get firms "Unknown" = Some l ∧ firm_of cp_data ∈ l) ∧
    (cp_data !! "firm_name" = None →
       ∃ l, Dict.get firms (stage_of cp_data) = Some l ∧ "Unknown" ∈ l).
Proof.
  intros Hall Hin.
  destruct (analyze_complete d w Hall) as (counts & firms & _ & Hrun & Hst & _).
  eexists firms, _. split; [exact Hrun|].
  pose proof (firms_in_elem _ _ (parsed_elem _ _ _ Hin)) as Hfirm.
  destruct (Hst (stage_of cp_data)) as [Hget _]. simpl in Hget.
  rewrite (group_elem _ _ Hfirm) in Hget.
  split; intros Hmissing.
  - exists (firms_in (stage_of cp_data) (parsed (glob (fs w) d))).
    split; [|done]. rewrite <- Hget. unfold stage_of. by rewrite Hmissing.
  - exists (firms_in (stage_of cp_data) (parsed (glob (fs w) d))).
    split; [done|]. unfold firm_of in Hfirm at 1. by rewrite Hmissing in Hfirm.
Qed.

Lemma missing_fields_default_witness :
  ∃ firms w',
    analyze_all_checkpoints "/partial" drive = (Returned (py_firms firms), w') ∧
    (∃ l, Dict.get firms "Unknown" = Some l ∧ "Unknown" ∈ l) ∧
    Dict.get firms "Unknown" = Some ["Acme"; "Unknown"; "Acme"].
Proof.
  assert (Hall : Forall unpickles (glob (fs drive) "/partial")) by all_unpickle.
  assert (Hin : ("y_checkpoint.pkl", Pickle ∅) ∈ glob (fs drive) "/partial").
  { apply (list_elem_of_lookup_2 _ 1%nat). run_drive. }
  destruct (missing_fields_default "/partial" drive _ _ Hall Hin)
    as (firms & w' & Hrun & Hstage & _).
  exists firms, w'. split; [exact Hrun|]. split; [by apply Hstage|].
  vm_compute in Hrun. injection Hrun as Hfirms _.
  destruct firms as [|[stage l] [|]]; try discriminate Hfirms.
  injection Hfirms as <- Hl.
  destruct l as [|a [|b [|c [|]]]]; try discriminate Hl.
  by injection Hl as <- <- <-.
Defined.

Lemma firms_in_app stage records1 records2 :
  firms_in stage (records1 ++ records2) =
  firms_in stage records1 ++ firms_in stage records2.
Proof. unfold firms_in. by rewrite filter_app, fmap_app. Qed.

Lemma parsed_app checkpoints1 checkpoints2 :
  parsed (checkpoints1 ++ checkpoints2) = parsed checkpoints1 ++ parsed checkpoints2.
Proof. apply omap_app. Qed.

(** Two checkpoints of one stage and one firm leave the firm at two
    places of the list of the stage. *)
Lemma firms_in_twice checkpoints i j name_i name_j cp_i cp_j :
  (i < j)%nat →
  checkpoints !! i = Some (name_i, Pickle cp_i) →
  checkpoints !! j = Some (name_j, Pickle cp_j) →
  stage_of cp_i = stage_of cp_j →
  firm_of cp_i = firm_of cp_j →
  ∃ p q, (p < q)%nat ∧
    firms_in (stage_of cp_i) (parsed checkpoints) !! p = Some (firm_of cp_i) ∧
    firms_in (stage_of cp_i) (parsed checkpoints) !! q = Some (firm_of cp_i).
Proof.
  intros Hij Hi Hj Hstage Hfirm.
  rewrite <- (take_drop_middle _ _ _ Hj), parsed_app, firms_in_app.
  assert (Hin : firm_of cp_i ∈ firms_in (stage_of cp_i) (parsed (take j checkpoints))).
  { apply firms_in_elem, (parsed_elem name_i), (list_elem_of_lookup_2 _ i).
    by rewrite lookup_take_lt. }
  apply list_elem_of_lookup_1 in Hin as [p Hp].
  exists p, (length (firms_in (stage_of cp_i) (parsed (take j checkpoints)))).
  pose proof (lookup_lt_Some _ _ _ Hp) as Hlt.
  split_and!; [done|by rewrite lookup_app_l|].
  rewrite lookup_app_r, Nat.sub_diag by lia.
  unfold firms_in, parsed. simpl. rewrite filter_cons.
  case_decide; [|congruence]. simpl. by rewrite Hfirm.
Qed.

(** C10: firm names are not deduplicated.  Two checkpoints of the listing
    with the same stage and the same firm name put the name at two places
    of the list of the stage, and the count of the stage, which is the
    length of that list, covers both. *)
Theorem duplicates_kept d w i j name_i name_j cp_i cp_j :
  Forall unpickles (glob (fs w) d) →
  (i < j)%nat →
  glob (fs w) d !! i = Some (name_i, Pickle cp_i) →
  glob (fs w) d !! j = Some (name_j, Pickle cp_j) →
  stage_of cp_i = stage_of cp_j →
  firm_of cp_i = firm_of cp_j →
  ∃ counts firms w' l p q,
    aggregate (glob (fs w) d) = Ok (counts, firms) ∧
    analyze_all_checkpoints d w = (Returned (py_firms firms), w') ∧
    Dict.get firms (stage_of cp_i) = Some l ∧
    (p < q)%nat ∧ l !! p = Some (firm_of cp_i) ∧ l !! q = Some (firm_of cp_i) ∧
    Dict.get counts (stage_of cp_i) = Some (Z.of_nat (length l)) ∧
    2 ≤ Z.of_nat (length l).
Proof.
  intros Hall Hij Hi Hj Hstage Hfirm.
  destruct (analyze_complete d w Hall) as (counts & firms & Hagg & Hrun & Hst & _).
  destruct (firms_in_twice _ _ _ _ _ _ _ Hij Hi Hj Hstage Hfirm) as (p & q & Hpq & Hp & Hq).
  destruct (Hst (stage_of cp_i)) as [Hgetf Hgetc]. simpl in Hgetf, Hgetc.
  rewrite (group_elem (firm_of cp_i)) in Hgetf, Hgetc
    by (by eapply list_elem_of_lookup_2).
  eexists counts, firms, _, _, p, q. split_and!; try done.
  apply lookup_lt_Some in Hq. lia.
Qed.

Lemma duplicates_kept_witness :
  ∃ counts firms w',
    aggregate (glob (fs drive) "/partial") = Ok (counts, firms) ∧
    analyze_all_checkpoints "/partial" drive = (Returned (py_firms firms), w') ∧
    Dict.get firms "Unknown" = Some ["Acme"; "Unknown"; "Acme"] ∧
    Dict.get counts "Unknown" = Some 3.
Proof.
  assert (Hall : Forall unpickles (glob (fs drive) "/partial")) by all_unpickle.
  destruct (duplicates_kept "/partial" drive 0 2
              "x_checkpoint.pkl" "z_checkpoint.pkl"
              {[ "firm_name" := "Acme" ]} {[ "firm_name" := "Acme" ]}
              Hall ltac:(lia) ltac:(run_drive) ltac:(run_drive) eq_refl eq_refl)
    as (counts & firms & w' & l & p & q & Hagg & Hrun & _).
  exists counts, firms, w'. split; [exact Hagg|]. split; [exact Hrun|].
  vm_compute in Hagg. injection Hagg as <- <-. split; reflexivity.
Defined.

(** * Scanning again *)

(** The outcome and the printed lines depend on the files alone. *)
Lemma analyze_output d w :
  ∃ lines, ∀ w1, fs w1 = fs w →
    analyze_all_checkpoints d w1 = ((analyze_all_checkpoints d w).1, print_all lines w1).
Proof.
  unfold analyze_all_checkpoints.
  destruct (aggregate (glob (fs w) d)) as [[counts firms]|e] eqn:Hagg.
  - exists (report (Z.of_nat (length (glob (fs w) d))) counts).
    intros w1 ->. by rewrite Hagg.
  - exists []. intros w1 ->. by rewrite Hagg.
Qed.

(** C8: the scan leaves the drive as it found it, so a second scan of the
    directory gives the caller the same outcome (the same mapping with the
    same firm lists in the same order, or the same error) and prints the
    same lines, counts included, after those of the first. *)
Theorem scan_twice d w :
  let first := analyze_all_checkpoints d w in
  let second := analyze_all_checkpoints d first.2 in
  fs first.2 = fs w ∧
  fs second.2 = fs w ∧
  second.1 = first.1 ∧
  aggregate (glob (fs first.2) d) = aggregate (glob (fs w) d) ∧
  ∃ lines, stdout first.2 = stdout w ++ lines ∧
           stdout second.2 = stdout first.2 ++ lines.
Proof.
  destruct (analyze_output d w) as [lines Hlines].
  pose proof (Hlines w eq_refl) as Hfirst.
  assert (Hfs : fs (analyze_all_checkpoints d w).2 = fs w).
  { rewrite Hfirst. apply print_all_fs. }
  pose proof (Hlines _ Hfs) as Hsecond.
  cbv zeta. rewrite Hsecond. cbn [fst snd]. rewrite print_all_fs, Hfs.
  split_and!; [done|done|done|done|].
  exists lines. rewrite print_all_stdout. split; [|done].
  rewrite Hfirst. apply print_all_stdout.
Qed.

(** * The files that are scanned *)

Lemma string_app_cons c p s : String c p +:+ s = String c (p +:+ s).
Proof. reflexivity. Qed.

Lemma substring_skip p s k :
  String.substring (String.length p) k (p +:+ s) = String.substring 0 k s.
Proof. induction p as [|c p IH]; [done|]. rewrite string_app_cons. simpl. apply IH. Qed.

Lemma substring_all s : String.substring 0 (String.length s) s = s.
Proof. induction s as [|c s IH]; [done|]. simpl. by rewrite IH. Qed.

Lemma string_length_app p s :
  String.length (p +:+ s) = (String.length p + String.length s)%nat.
Proof. induction p as [|c p IH]; [done|]. rewrite string_app_cons. simpl. by rewrite IH. Qed.

Lemma string_split_at s : ∀ i, (i ≤ String.length s)%nat →
  s = String.substring 0 i s +:+ String.substring i (String.length s - i) s.
Proof.
  induction s as [|c s IH]; intros i Hi; simpl in *.
  - by destruct i.
  - destruct i as [|i]; simpl.
    + by rewrite substring_all.
    + rewrite string_app_cons. f_equal. apply IH. lia.
Qed.

Lemma ends_with_suffix suffix name :
  ends_with suffix name = true ↔ ∃ prefix, name = prefix +:+ suffix.
Proof.
  unfold ends_with. rewrite andb_true_iff, !bool_decide_eq_true. split.
  - intros [Hle Hsub]. exists (String.substring 0 (String.length name - String.length suffix) name).
    rewrite <- Hsub at 2.
    rewrite (string_split_at name (String.length name - String.length suffix)) at 1 by lia.
    do 2 f_equal. lia.
  - intros [prefix ->]. rewrite string_length_app. split; [lia|].
    replace (String.length prefix + String.length suffix - String.length suffix)%nat
      with (String.length prefix) by lia.
    by rewrite substring_skip, substring_all.
Qed.

(** X1: the scan takes the entries of the directory whose name is any
    text, the empty one too, followed by [_checkpoint.pkl], and no other
    entry. *)
Theorem glob_matches_suffix files d name f :
  (name, f) ∈ glob files d ↔
  ∃ listing prefix,
    files !! d = Some listing ∧ (name, f) ∈ listing ∧
    name = prefix +:+ "_checkpoint.pkl".
Proof.
  unfold glob. destruct (files !! d) as [listing|]; split.
  - intros [Hmatch Hin]%list_elem_of_filter. simpl in Hmatch.
    apply ends_with_suffix in Hmatch as [prefix ->]. by exists listing, prefix.
  - intros (listing' & prefix & [= <-] & Hin & ->).
    apply list_elem_of_filter. split; [|done]. simpl.
    apply ends_with_suffix. by exists prefix.
  - by intros ?%elem_of_nil.
  - by intros (? & ? & ? & _).
Qed.

Lemma analyze_same_glob d w1 w2 :
  glob (fs w1) d = glob (fs w2) d →
  (analyze_all_checkpoints d w1).1 = (analyze_all_checkpoints d w2).1 ∧
  ∃ lines,
    stdout (analyze_all_checkpoints d w1).2 = stdout w1 ++ lines ∧
    stdout (analyze_all_checkpoints d w2).2 = stdout w2 ++ lines.
Proof.
  intros Hglob. unfold analyze_all_checkpoints. rewrite Hglob.
  destruct (aggregate (glob (fs w2) d)) as [[counts firms]|e]; cbn [fst snd].
  - split; [done|]. eexists. by rewrite !print_all_stdout.
  - split; [done|]. exists []. by rewrite !app_nil_r.
Qed.

(** X2: an entry whose name the pattern does not match is never opened.
    With or without it in the listing, whatever it holds, the scan has the
    same outcome and prints the same lines. *)
Theorem unmatched_file_ignored d w1 w2 before entry after :
  ends_with "_checkpoint.pkl" entry.1 = false →
  fs w1 !! d = Some (before ++ entry :: after) →
  fs w2 !! d = Some (before ++ after) →
  (analyze_all_checkpoints d w1).1 = (analyze_all_checkpoints d w2).1 ∧
  ∃ lines,
    stdout (analyze_all_checkpoints d w1).2 = stdout w1 ++ lines ∧
    stdout (analyze_all_checkpoints d w2).2 = stdout w2 ++ lines.
Proof.
  intros Hno H1 H2. apply analyze_same_glob. unfold glob. rewrite H1, H2.
  rewrite !filter_app, filter_cons. case_decide; [congruence|done].
Qed.

Lemma unmatched_file_ignored_witness :
  (analyze_all_checkpoints "/ckpt" drive).1 =
  (analyze_all_checkpoints "/ckpt" drive_sorted).1.
Proof.
  refine (proj1 (unmatched_file_ignored "/ckpt" drive drive_sorted
    [ ("a_checkpoint.pkl", Pickle (rec_of "embedding" "Acme")) ]
    ("notes.txt", Corrupt)
    [ ("b_checkpoint.pkl", Pickle (rec_of "topic_modeling" "Globex"));
      ("c_checkpoint.pkl", Pickle (rec_of "topic_modeling" "Initech")) ]
    _ _ _)); run_drive.
Defined.


(** * The order of the stages *)

Lemma elem_of_first_seen x l : x ∈ first_seen l ↔ x ∈ l.
Proof.
  induction l as [|y l IH]; [done|]. simpl.
  rewrite !elem_of_cons, list_elem_of_filter, IH.
  destruct (decide (x = y)); tauto.
Qed.

Lemma first_seen_snoc l x :
  first_seen (l ++ [x]) = if decide (x ∈ l) then first_seen l else first_seen l ++ [x].
Proof.
  induction l as [|y l IH]; [done|]. simpl. rewrite IH.
  destruct (decide (x ∈ l)) as [Hin|Hnotin].
  - rewrite decide_True; [done|]. by apply elem_of_cons; right.
  - rewrite filter_app, filter_cons, filter_nil.
    destruct (decide (x = y)) as [->|Hne].
    + destruct (decide (y ≠ y)) as [Hne|_]; [by destruct Hne|].
      rewrite app_nil_r. case_decide as Hin; [done|].
      destruct Hin. by apply elem_of_cons; left.
    + destruct (decide (x ≠ y)) as [_|Heq]; [|by destruct Heq].
      case_decide as Hin; [|done].
      apply elem_of_cons in Hin as [?|?]; [by destruct Hne|by destruct Hnotin].
Qed.

Section dict_order.
Context {V : Type}.
Implicit Types (d : dict V) (k : string) (v : V).

Lemma get_is_Some_keys d k : is_Some (Dict.get d k) ↔ k ∈ Dict.keys d.
Proof.
  unfold Dict.keys. induction d as [|[k0 v0] d IH]; simpl.
  - rewrite elem_of_nil. split; [by intros [? ?]|done].
  - rewrite elem_of_cons. case_decide; subst.
    + split; [by left|by eexists].
    + rewrite IH. split; [by right|]. by intros [?|?].
Qed.

Lemma keys_set d k v :
  Dict.keys (Dict.set d k v) =
  if decide (k ∈ Dict.keys d) then Dict.keys d else Dict.keys d ++ [k].
Proof.
  unfold Dict.keys. induction d as [|[k0 v0] d IH]; [done|].
  cbn [Dict.set]. rewrite fmap_cons. cbn [fst].
  destruct (decide (k0 = k)) as [->|Hne].
  - rewrite fmap_cons. cbn [fst].
    rewrite decide_True; [done|]. by apply elem_of_cons; left.
  - rewrite fmap_cons, IH. cbn [fst].
    destruct (decide (k ∈ d.*1)) as [Hin|Hnotin].
    + rewrite decide_True; [done|]. by apply elem_of_cons; right.
    + rewrite decide_False; [done|]. rewrite elem_of_cons. by intros [?|?].
Qed.

(** A dict is its keys, in order, each with the value stored for it. *)
Lemma dict_from_keys d (f : string → V) :
  NoDup (Dict.keys d) →
  (∀ k, k ∈ Dict.keys d → Dict.get d k = Some (f k)) →
  d = (λ k, (k, f k)) <$> Dict.keys d.
Proof.
  unfold Dict.keys. induction d as [|[k0 v0] d IH]; simpl; intros Hnd Hget; [done|].
  apply NoDup_cons in Hnd as [Hnotin Hnd].
  pose proof (Hget k0 ltac:(by apply elem_of_cons; left)) as H0.
  rewrite decide_True in H0 by done. injection H0 as ->.
  f_equal. apply IH; [done|]. intros k Hin.
  specialize (Hget k ltac:(by apply elem_of_cons; right)).
  rewrite decide_False in Hget; [done|]. by intros ->.
Qed.
End dict_order.

Lemma loop_body_keys records st name cp_data st' :
  loop_body st (name, Pickle cp_data) = Ok st' →
  Dict.keys st.1 = first_seen (stage_of <$> records) →
  Dict.keys st.2 = first_seen (stage_of <$> records) →
  Dict.keys st'.1 = first_seen (stage_of <$> records ++ [cp_data]) ∧
  Dict.keys st'.2 = first_seen (stage_of <$> records ++ [cp_data]).
Proof.
  destruct st as [counts firms]. rewrite loop_body_pickle.
  intros [= <-] Hc Hf. cbn [fst snd] in *.
  rewrite fmap_app. change (stage_of <$> [cp_data]) with [stage_of cp_data].
  rewrite first_seen_snoc.
  split.
  - rewrite keys_set, Hc.
    destruct (decide (stage_of cp_data ∈ stage_of <$> records)) as [Hin|Hnotin].
    + rewrite decide_True; [done|]. by apply elem_of_first_seen.
    + rewrite decide_False; [done|]. by rewrite elem_of_first_seen.
  - unfold Dict.mem.
    destruct (Dict.get firms (stage_of cp_data)) as [l|] eqn:Hget.
    + assert (Hin : stage_of cp_data ∈ Dict.keys firms)
        by (apply get_is_Some_keys; by rewrite Hget).
      rewrite keys_set, (decide_True (P := _ ∈ Dict.keys firms)) by done.
      rewrite decide_True; [done|]. by rewrite <- elem_of_first_seen, <- Hf.
    + assert (Hnotin : stage_of cp_data ∉ Dict.keys firms).
      { intros Hin%get_is_Some_keys. rewrite Hget in Hin. by destruct Hin. }
      rewrite keys_set, (keys_set firms).
      rewrite (decide_False (P := _ ∈ Dict.keys firms)) by done.
      rewrite (decide_True (P := _ ∈ Dict.keys firms ++ _))
        by (apply elem_of_app; right; by apply list_elem_of_singleton).
      rewrite decide_False; [by rewrite Hf|].
      by rewrite <- elem_of_first_seen, <- Hf.
Qed.

Lemma for_each_keys checkpoints : ∀ records st st',
  for_each checkpoints st = Ok st' →
  Dict.keys st.1 = first_seen (stage_of <$> records) →
  Dict.keys st.2 = first_seen (stage_of <$> records) →
  Dict.keys st'.1 = first_seen (stage_of <$> records ++ parsed checkpoints) ∧
  Dict.keys st'.2 = first_seen (stage_of <$> records ++ parsed checkpoints).
Proof.
  induction checkpoints as [|[name [cp_data|]] rest IH]; intros records st st';
    cbn [for_each].
  - intros [= <-]. simpl. by rewrite app_nil_r.
  - destruct (loop_body st (name, Pickle cp_data)) as [st1|e] eqn:Hbody; [|done].
    cbn [bind]. intros Hloop Hc Hf.
    destruct (loop_body_keys records _ _ _ _ Hbody Hc Hf) as [Hc1 Hf1].
    destruct (IH (records ++ [cp_data]) st1 st' Hloop Hc1 Hf1) as [Hc' Hf'].
    simpl. by rewrite <- !app_assoc in Hc', Hf'.
  - by rewrite loop_body_corrupt.
Qed.

(** The two dicts of a scan whose checkpoints all unpickle. *)
Lemma aggregate_exact checkpoints :
  Forall unpickles checkpoints →
  aggregate checkpoints =
    Ok ((λ stage, (stage, Z.of_nat (length (firms_in stage (parsed checkpoints)))))
          <$> first_seen (stage_of <$> parsed checkpoints),
        (λ stage, (stage, firms_in stage (parsed checkpoints)))
          <$> first_seen (stage_of <$> parsed checkpoints)).
Proof.
  intros Hall.
  destruct (aggregate_tallies _ Hall) as ([counts firms] & Hagg & Hst & _).
  destruct (for_each_NoDup _ _ _ Hagg) as [Hndc Hndf]; [apply NoDup_nil_2..|].
  destruct (for_each_keys _ [] _ _ Hagg) as [Hkc Hkf]; [done..|].
  simpl in *. rewrite Hagg. f_equal. f_equal.
  - rewrite <- Hkc. apply dict_from_keys; [done|]. intros k Hin.
    apply get_is_Some_keys in Hin as [n Hn].
    destruct (Hst k) as [_ Hget]. simpl in Hget. rewrite Hget in Hn |- *.
    by destruct (firms_in k (parsed checkpoints)).
  - rewrite <- Hkf. apply dict_from_keys; [done|]. intros k Hin.
    apply get_is_Some_keys in Hin as [l Hl].
    destruct (Hst k) as [Hget _]. simpl in Hget. rewrite Hget in Hl |- *.
    by destruct (firms_in k (parsed checkpoints)).
Qed.

(** X4: when every checkpoint unpickles, the returned mapping is fixed by
    the records alone.  Its keys are the stages of the records in the order
    in which each stage first occurs in the listing, and the value of a
    stage is the firm names of its records in listing order. *)
Theorem returned_mapping_exact d w :
  Forall unpickles (glob (fs w) d) →
  (analyze_all_checkpoints d w).1 =
    Returned (PyDict
      ((λ stage, (stage, PyList (PyStr <$> firms_in stage (parsed (glob (fs w) d)))))
         <$> first_seen (stage_of <$> parsed (glob (fs w) d)))).
Proof.
  intros Hall. unfold analyze_all_checkpoints.
  rewrite (aggregate_exact _ Hall). simpl. unfold py_firms.
  by rewrite <- list_fmap_compose.
Qed.

Lemma returned_mapping_exact_witness :
  (analyze_all_checkpoints "/partial" drive).1 =
    Returned (PyDict [ ("Unknown", PyList [PyStr "Acme"; PyStr "Unknown"; PyStr "Acme"]) ]).
Proof.
  assert (Hall : Forall unpickles (glob (fs drive) "/partial")) by all_unpickle.
  rewrite (returned_mapping_exact "/partial" drive Hall). run_drive.
Defined.

(** X5: when every checkpoint unpickles, the scan prints the heading, the
    number of checkpoints, the heading of the breakdown, and then one line
    per stage, in the order in which the stages first occur in the listing,
    with the number of records of that stage. *)
Theorem printed_report_exact d w :
  Forall unpickles (glob (fs w) d) →
  stdout (analyze_all_checkpoints d w).2 =
    stdout w ++
    [ "Checkpoint Analysis:";
      "Total checkpoints: " +:+ pretty (Z.of_nat (length (glob (fs w) d)));
      newline +:+ "Breakdown by stage:" ] ++
    ((λ stage,
        "  - " +:+ stage +:+ ": " +:+
        pretty (Z.of_nat (length (filter (λ r, stage_of r = stage)
                                         (parsed (glob (fs w) d))))) +:+
        " firms")
       <$> first_seen (stage_of <$> parsed (glob (fs w) d))).
Proof.
  intros Hall. unfold analyze_all_checkpoints.
  rewrite (aggregate_exact _ Hall). cbn [snd].
  rewrite print_all_stdout. unfold report. do 2 f_equal.
  rewrite <- list_fmap_compose. apply list_fmap_ext. intros _ stage _. simpl.
  unfold firms_in. by rewrite length_fmap.
Qed.

Lemma printed_report_exact_witness :
  stdout (analyze_all_checkpoints "/ckpt" drive).2 =
    [ "mounted"; "Checkpoint Analysis:"; "Total checkpoints: 3";
      newline +:+ "Breakdown by stage:";
      "  - embedding: 1 firms"; "  - topic_modeling: 2 firms" ].
Proof.
  assert (Hall : Forall unpickles (glob (fs drive) "/ckpt")) by all_unpickle.
  rewrite (printed_report_exact "/ckpt" drive Hall). run_drive.
Defined.

(** * One more checkpoint *)

Lemma for_each_app checkpoints1 checkpoints2 : ∀ st,
  for_each (checkpoints1 ++ checkpoints2) st =
  bind (for_each checkpoints1 st) (for_each checkpoints2).
Proof.
  induction checkpoints1 as [|cp_file rest IH]; intros st; [done|].
  cbn [app for_each]. destruct (loop_body st cp_file) as [st1|e]; [|done].
  cbn [bind]. apply IH.
Qed.

(** X8: a checkpoint that comes last in the listing only adds to what the
    files before it gave.  The list of its stage gets its firm at the end,
    the count of its stage goes up by one (from zero and from the empty
    list for a new stage), and no other stage changes. *)
Theorem last_checkpoint_extends checkpoints name cp_data counts firms :
  aggregate checkpoints = Ok (counts, firms) →
  ∃ counts' firms',
    aggregate (checkpoints ++ [(name, Pickle cp_data)]) = Ok (counts', firms') ∧
    Dict.get firms' (stage_of cp_data) =
      Some (default [] (Dict.get firms (stage_of cp_data)) ++ [firm_of cp_data]) ∧
    Dict.get counts' (stage_of cp_data) =
      Some (default 0 (Dict.get counts (stage_of cp_data)) + 1) ∧
    ∀ stage, stage ≠ stage_of cp_data →
      Dict.get firms' stage = Dict.get firms stage ∧
      Dict.get counts' stage = Dict.get counts stage.
Proof.
  intros Hagg. unfold aggregate in *. rewrite for_each_app, Hagg.
  cbn [bind for_each]. rewrite loop_body_pickle. cbn [bind].
  eexists _, _. split; [done|]. rewrite !get_set_eq. split_and!; [done|done|].
  intros stage Hne. rewrite !get_set_ne by done. split; [|done].
  unfold Dict.mem. destruct (Dict.get firms (stage_of cp_data)); [done|].
  by rewrite get_set_ne.
Qed.

Lemma last_checkpoint_extends_witness :
  ∃ counts' firms',
    aggregate (glob (fs drive) "/ckpt" ++
               [ ("d_checkpoint.pkl", Pickle (rec_of "embedding" "Hooli")) ]) =
      Ok (counts', firms') ∧
    Dict.get firms' "embedding" = Some ["Acme"; "Hooli"] ∧
    Dict.get counts' "embedding" = Some 2.
Proof.
  destruct (last_checkpoint_extends (glob (fs drive) "/ckpt") "d_checkpoint.pkl"
              (rec_of "embedding" "Hooli")
              [ ("embedding", 1); ("topic_modeling", 2) ]
              [ ("embedding", ["Acme"]); ("topic_modeling", ["Globex"; "Initech"]) ]
              ltac:(run_drive))
    as (counts' & firms' & Hagg & Hfirms & Hcounts & _).
  by exists counts', firms'.
Defined.

(** * What the scan reads of a file *)

Lemma for_each_same_fields checkpoints1 checkpoints2 :
  Forall2 same_fields checkpoints1 checkpoints2 →
  ∀ st, for_each checkpoints1 st = for_each checkpoints2 st.
Proof.
  induction 1 as [|[name1 f1] [name2 f2] rest1 rest2 Hsame _ IH]; intros st; [done|].
  cbn [for_each]. unfold same_fields in Hsame. simpl in Hsame.
  destruct f1 as [r1|], f2 as [r2|]; try done.
  - destruct st as [counts firms], Hsame as [Hstage Hfirm].
    rewrite !loop_body_pickle, Hstage, Hfirm. cbn [bind]. apply IH.
  - by rewrite !loop_body_corrupt.
Qed.

(** X9: of a checkpoint the scan reads the value of [stage] and the value
    of [firm_name], each with its default, and nothing else.  Two
    directories whose checkpoints agree on these, one by one, have the same
    outcome and the same printed lines: file names and other fields do not
    count, and a record that lacks a field is not told from one that holds
    ["Unknown"] there. *)
Theorem only_two_fields_read d1 w1 d2 w2 :
  Forall2 same_fields (glob (fs w1) d1) (glob (fs w2) d2) →
  (analyze_all_checkpoints d1 w1).1 = (analyze_all_checkpoints d2 w2).1 ∧
  ∃ lines,
    stdout (analyze_all_checkpoints d1 w1).2 = stdout w1 ++ lines ∧
    stdout (analyze_all_checkpoints d2 w2).2 = stdout w2 ++ lines.
Proof.
  intros Hsame. unfold analyze_all_checkpoints, aggregate.
  rewrite (for_each_same_fields _ _ Hsame), (Forall2_length _ _ _ Hsame).
  destruct (for_each (glob (fs w2) d2) ([], [])) as [[counts firms]|e]; cbn [fst snd].
  - split; [done|]. eexists. by rewrite !print_all_stdout.
  - split; [done|]. exists []. by rewrite !app_nil_r.
Qed.

Lemma only_two_fields_read_witness :
  (analyze_all_checkpoints "/partial" drive).1 =
  (analyze_all_checkpoints "/partial" drive_variant).1.
Proof.
  refine (proj1 (only_two_fields_read "/partial" drive "/partial" drive_variant _)).
  vm_compute. repeat constructor.
Defined.

(** * Nothing lost, nothing added *)

Lemma all_firms_cons k (l : list string) (d : dict (list string)) :
  all_firms ((k, l) :: d) = l ++ all_firms d.
Proof. reflexivity. Qed.

Lemma all_firms_set_new (d : dict (list string)) k v :
  Dict.get d k = None → all_firms (Dict.set d k v) = all_firms d ++ v.
Proof.
  induction d as [|[k0 l0] d IH]; cbn [Dict.get Dict.set]; intros Hget.
  - rewrite all_firms_cons. unfold all_firms. simpl. by rewrite app_nil_r.
  - destruct (decide (k0 = k)); [done|].
    by rewrite !all_firms_cons, IH, app_assoc.
Qed.

Lemma all_firms_set_old (d : dict (list string)) k l v :
  Dict.get d k = Some l → all_firms (Dict.set d k (l ++ v)) ≡ₚ all_firms d ++ v.
Proof.
  induction d as [|[k0 l0] d IH]; cbn [Dict.get Dict.set]; intros Hget; [done|].
  destruct (decide (k0 = k)).
  - injection Hget as ->. rewrite !all_firms_cons, <- !app_assoc.
    apply Permutation_app_head, Permutation_app_comm.
  - rewrite !all_firms_cons, IH by done. by rewrite app_assoc.
Qed.

Lemma loop_body_all_firms st name cp_data st' :
  loop_body st (name, Pickle cp_data) = Ok st' →
  all_firms st'.2 ≡ₚ all_firms st.2 ++ [firm_of cp_data].
Proof.
  destruct st as [counts firms]. rewrite loop_body_pickle. intros [= <-]. cbn [snd].
  unfold Dict.mem. destruct (Dict.get firms (stage_of cp_data)) as [l|] eqn:Hget.
  - by apply all_firms_set_old.
  - cbn [default]. rewrite (all_firms_set_old _ _ []) by apply get_set_eq.
    by rewrite all_firms_set_new, app_nil_r.
Qed.

Lemma for_each_all_firms checkpoints : ∀ st st',
  for_each checkpoints st = Ok st' →
  all_firms st'.2 ≡ₚ all_firms st.2 ++ (firm_of <$> parsed checkpoints).
Proof.
  induction checkpoints as [|[name [cp_data|]] rest IH]; intros st st'; cbn [for_each].
  - intros [= <-]. simpl. by rewrite app_nil_r.
  - destruct (loop_body st (name, Pickle cp_data)) as [st1|e] eqn:Hbody; [|done].
    cbn [bind]. intros Hloop.
    rewrite (IH _ _ Hloop), (loop_body_all_firms _ _ _ _ Hbody).
    simpl. by rewrite <- app_assoc.
  - by rewrite loop_body_corrupt.
Qed.

(** X7: when every checkpoint unpickles, the lists of the returned mapping
    hold, taken together, the firm name of every scanned record, once per
    record: no name is dropped, merged or made up. *)
Theorem firm_names_conserved d w :
  Forall unpickles (glob (fs w) d) →
  ∃ counts firms,
    aggregate (glob (fs w) d) = Ok (counts, firms) ∧
    (analyze_all_checkpoints d w).1 = Returned (py_firms firms) ∧
    all_firms firms ≡ₚ firm_of <$> parsed (glob (fs w) d).
Proof.
  intros Hall.
  destruct (analyze_complete d w Hall) as (counts & firms & Hagg & Hrun & _).
  exists counts, firms. rewrite Hrun. split_and!; [done|done|].
  apply (for_each_all_firms _ _ _ Hagg).
Qed.

Lemma firm_names_conserved_witness :
  ∃ counts firms,
    aggregate (glob (fs drive) "/partial") = Ok (counts, firms) ∧
    all_firms firms ≡ₚ ["Acme"; "Unknown"; "Acme"].
Proof.
  assert (Hall : Forall unpickles (glob (fs drive) "/partial")) by all_unpickle.
  destruct (firm_names_conserved "/partial" drive Hall)
    as (counts & firms & Hagg & _ & Hperm).
  exists counts, firms. split; [exact Hagg|exact Hperm].
Defined.

(** * The order of the listing *)

Lemma glob_Permutation files1 files2 d listing1 listing2 :
  files1 !! d = Some listing1 → files2 !! d = Some listing2 →
  listing1 ≡ₚ listing2 → glob files1 d ≡ₚ glob files2 d.
Proof. intros H1 H2 Hperm. unfold glob. by rewrite H1, H2, Hperm. Qed.

Lemma parsed_Permutation checkpoints1 checkpoints2 :
  checkpoints1 ≡ₚ checkpoints2 → parsed checkpoints1 ≡ₚ parsed checkpoints2.
Proof. intros Hperm. unfold parsed. by rewrite Hperm. Qed.

Lemma firms_in_Permutation stage records1 records2 :
  records1 ≡ₚ records2 → firms_in stage records1 ≡ₚ firms_in stage records2.
Proof. intros Hperm. unfold firms_in. by rewrite Hperm. Qed.

Lemma group_Permutation {A} (l1 l2 : list A) :
  l1 ≡ₚ l2 →
  default [] (group l1) ≡ₚ default [] (group l2) ∧
  (λ l, Z.of_nat (length l)) <$> group l1 = (λ l, Z.of_nat (length l)) <$> group l2.
Proof.
  intros Hperm. rewrite !group_default. split; [done|].
  destruct l1 as [|x l1], l2 as [|y l2]; simpl.
  - done.
  - by apply Permutation_nil_cons in Hperm.
  - symmetry in Hperm. by apply Permutation_nil_cons in Hperm.
  - do 2 f_equal. apply Permutation_length in Hperm. simpl in Hperm. lia.
Qed.

(** X6: the order in which the directory is listed decides the order of
    the names and nothing else.  Two listings of the same entries, all of
    whose checkpoints unpickle, give every stage the same count and the
    same firm names up to their order, and the same reported total. *)
Theorem listing_order_irrelevant d w1 w2 listing1 listing2 :
  fs w1 !! d = Some listing1 →
  fs w2 !! d = Some listing2 →
  listing1 ≡ₚ listing2 →
  Forall unpickles (glob (fs w1) d) →
  ∃ counts1 firms1 counts2 firms2,
    aggregate (glob (fs w1) d) = Ok (counts1, firms1) ∧
    aggregate (glob (fs w2) d) = Ok (counts2, firms2) ∧
    (analyze_all_checkpoints d w1).1 = Returned (py_firms firms1) ∧
    (analyze_all_checkpoints d w2).1 = Returned (py_firms firms2) ∧
    total counts1 = total counts2 ∧
    ∀ stage,
      Dict.get counts1 stage = Dict.get counts2 stage ∧
      default [] (Dict.get firms1 stage) ≡ₚ default [] (Dict.get firms2 stage).
Proof.
  intros H1 H2 Hperm Hall1.
  pose proof (glob_Permutation _ _ _ _ _ H1 H2 Hperm) as Hglob.
  assert (Hall2 : Forall unpickles (glob (fs w2) d)) by (by rewrite <- Hglob).
  destruct (analyze_complete d w1 Hall1)
    as (counts1 & firms1 & Hagg1 & Hrun1 & Hst1 & Htot1 & _).
  destruct (analyze_complete d w2 Hall2)
    as (counts2 & firms2 & Hagg2 & Hrun2 & Hst2 & Htot2 & _).
  exists counts1, firms1, counts2, firms2. rewrite Hrun1, Hrun2.
  split_and!; [done|done|done|done|..].
  - rewrite Htot1, Htot2. by rewrite Hglob.
  - intros stage. destruct (Hst1 stage) as [Hf1 Hc1], (Hst2 stage) as [Hf2 Hc2].
    cbn [fst snd] in *. rewrite Hf1, Hc1, Hf2, Hc2.
    destruct (group_Permutation _ _
      (firms_in_Permutation stage _ _ (parsed_Permutation _ _ Hglob))) as [Hp Hn].
    by split.
Qed.

Lemma listing_order_irrelevant_witness :
  ∃ counts1 firms1 counts2 firms2,
    aggregate (glob (fs drive) "/ckpt") = Ok (counts1, firms1) ∧
    aggregate (glob (fs drive_variant) "/ckpt") = Ok (counts2, firms2) ∧
    Dict.keys firms1 = ["embedding"; "topic_modeling"] ∧
    Dict.keys firms2 = ["topic_modeling"; "embedding"] ∧
    Dict.get counts1 "topic_modeling" = Dict.get counts2 "topic_modeling".
Proof.
  assert (Hall : Forall unpickles (glob (fs drive) "/ckpt")) by all_unpickle.
  destruct (listing_order_irrelevant "/ckpt" drive drive_variant
              (("a_checkpoint.pkl", Pickle (rec_of "embedding" "Acme")) ::
               [ ("notes.txt", Corrupt);
                 ("b_checkpoint.pkl", Pickle (rec_of "topic_modeling" "Globex"));
                 ("c_checkpoint.pkl", Pickle (rec_of "topic_modeling" "Initech")) ])
              ([ ("notes.txt", Corrupt);
                 ("b_checkpoint.pkl", Pickle (rec_of "topic_modeling" "Globex"));
                 ("c_checkpoint.pkl", Pickle (rec_of "topic_modeling" "Initech")) ] ++
               [ ("a_checkpoint.pkl", Pickle (rec_of "embedding" "Acme")) ])
              ltac:(run_drive) ltac:(run_drive)
              (Permutation_cons_append _ _) Hall)
    as (counts1 & firms1 & counts2 & firms2 & Hagg1 & Hagg2 & _ & _ & _ & Hstage).
  exists counts1, firms1, counts2, firms2.
  split; [exact Hagg1|]. split; [exact Hagg2|].
  pose proof (proj1 (Hstage "topic_modeling")) as Hcount.
  vm_compute in Hagg1, Hagg2. injection Hagg1 as <- <-. injection Hagg2 as <- <-.
  split_and!; [reflexivity|reflexivity|exact Hcount].
Defined.
